(** * De Bruijn graph of a collection of k-mers (Devoir/script05.py)

    A shallow embedding of [Prefix], [Suffix], [CompositionGraph],
    [DeBruijn], [adj_list_to_string], [read_kmers_from_file] and the example
    usage that ends the script, together with the Python built-ins they
    rely on: string slicing and comparison, insertion-ordered [dict], tuple
    and list comparison, [sorted], [join], [strip] and the lines of a text
    file.

    Python [str] values are modelled by [string]; characters are compared by
    their code, as Python compares code points. *)

From Stdlib Require Import List String Ascii Bool Arith NArith Lia.
From Stdlib Require Import Permutation Sorted.
Import ListNotations.

Open Scope string_scope.
Open Scope list_scope.

(** ** Exceptions *)

Module Py.

(** The exceptions the modelled operations are able to raise. *)
Inductive exception : Type :=
| KeyError (key : string).

Inductive result (A : Type) : Type :=
| Ok (a : A)
| Raise (e : exception).

Arguments Ok {A} a.
Arguments Raise {A} e.

Definition bind {A B : Type} (m : result A) (k : A -> result B) : result B :=
  match m with
  | Ok a => k a
  | Raise e => Raise e
  end.

(** [for x in xs: body], threading the loop state and stopping at the
    first exception. *)
Fixpoint for_each {S A : Type} (body : S -> A -> result S)
         (xs : list A) (s : S) : result S :=
  match xs with
  | [] => Ok s
  | x :: xs' => bind (body s x) (for_each body xs')
  end.

End Py.

Import Py.

Notation "x <- m ;; k" := (bind m (fun x => k))
  (at level 61, m at next level, right associativity).

(** ** Built-in [sorted]

    [sorted] is a stable sort that only uses [<].  It is modelled by a
    stable insertion sort, parameterised by the boolean [<] of the element
    type. *)

Section Sorted.

Context {A : Type}.
Variable lt : A -> A -> bool.

(** [x] is put in front of the first element that is not below it, so
    that it stays in front of the elements it is equal to. *)
Fixpoint insert (x : A) (l : list A) : list A :=
  match l with
  | [] => [x]
  | y :: l' => if lt y x then y :: insert x l' else x :: y :: l'
  end.

Definition sorted (l : list A) : list A := fold_right insert [] l.

End Sorted.

(** ** Comparison of strings, lists of strings and dictionary items *)

(** [a < b] on two lists: the first position where they differ decides; a
    proper prefix is smaller. *)
Fixpoint list_ltb (a b : list string) : bool :=
  match a, b with
  | _, [] => false
  | [], _ :: _ => true
  | x :: a', y :: b' => if String.eqb x y then list_ltb a' b' else String.ltb x y
  end.

(** [a < b] on two [(key, value)] tuples. *)
Definition item_ltb (a b : string * list string) : bool :=
  if String.eqb (fst a) (fst b) then list_ltb (snd a) (snd b)
  else String.ltb (fst a) (fst b).

(** ** Insertion-ordered dictionaries with string keys *)

Section Dict.

Context {V : Type}.

(** The items in insertion order. *)
Definition dict : Type := list (string * V).

Definition keys (d : dict) : list string := map fst d.
Definition values (d : dict) : list V := map snd d.
Definition items (d : dict) : list (string * V) := d.

(** [d.get(k)] *)
Fixpoint dict_get (k : string) (d : dict) : option V :=
  match d with
  | [] => None
  | (k', v) :: d' => if String.eqb k' k then Some v else dict_get k d'
  end.

(** [k in d] *)
Definition dict_contains (k : string) (d : dict) : bool :=
  match dict_get k d with
  | Some _ => true
  | None => false
  end.

(** [d[k]] *)
Definition dict_getitem (k : string) (d : dict) : result V :=
  match dict_get k d with
  | Some v => Ok v
  | None => Raise (KeyError k)
  end.

(** [d[k] = v]: an existing key keeps its position, a new key goes last. *)
Fixpoint dict_setitem (k : string) (v : V) (d : dict) : dict :=
  match d with
  | [] => [(k, v)]
  | (k', v') :: d' =>
      if String.eqb k' k then (k', v) :: d' else (k', v') :: dict_setitem k v d'
  end.

(** [{k: v for k, v in its}] *)
Definition dict_of_items (its : list (string * V)) : dict :=
  fold_left (fun d kv => dict_setitem (fst kv) (snd kv) d) its [].

End Dict.

Arguments dict V : clear implicits.

(** ** The program *)

(** [Pattern[:-1]] *)
Definition Prefix (Pattern : string) : string :=
  substring 0 (String.length Pattern - 1) Pattern.

(** [Pattern[1:]] *)
Definition Suffix (Pattern : string) : string :=
  substring 1 (String.length Pattern - 1) Pattern.

(** The loop of [CompositionGraph]: [edges] starts empty and receives one
    tuple per k-mer. *)
Definition CompositionGraph (Patterns : list string) : list (string * string) :=
  fold_left
    (fun edges kmer =>
       let prefix := Prefix kmer in
       let suffix := Suffix kmer in
       edges ++ [(prefix, suffix)])
    Patterns [].

(** The body of the loop of [DeBruijn].  [adj_list[prefix].append(suffix)]
    extends, in place, the list stored under [prefix]; that list is referred
    to from the dictionary only. *)
Definition DeBruijn_body (adj_list : dict (list string)) (edge : string * string)
  : result (dict (list string)) :=
  let '(prefix, suffix) := edge in
  if dict_contains prefix adj_list then
    l <- dict_getitem prefix adj_list ;;
    Ok (dict_setitem prefix (l ++ [suffix]) adj_list)
  else
    Ok (dict_setitem prefix [suffix] adj_list).

Definition DeBruijn (Patterns : list string) : result (dict (list string)) :=
  let edges := CompositionGraph Patterns in
  adj_list <- for_each DeBruijn_body edges [] ;;
  let sorted_adj_list :=
    dict_of_items
      (map (fun kv => (fst kv, sorted String.ltb (snd kv)))
           (sorted item_ltb (items adj_list))) in
  Ok sorted_adj_list.

(** The fixture of the script. *)
Definition listKmer : list string :=
  ["GAGG"; "CAGG"; "GGGG"; "GGGA"; "CAGG"; "AGGG"; "GGAG"].

(** ** Notions used to state the properties *)

(** [a <= b] and [a < b] on strings, from the [<] that [sorted] consults:
    [a <= b] when [b] is not below [a]. *)
Definition str_le (a b : string) : Prop := String.ltb b a = false.
Definition str_lt (a b : string) : Prop := String.ltb a b = true.

(** The suffixes of the edges that leave [p], in the order of the edges. *)
Definition suffixes_of (p : string) (edges : list (string * string)) : list string :=
  map snd (filter (fun e => String.eqb (fst e) p) edges).

(** One round of the loop, exception-free. *)
Definition group_step (d : dict (list string)) (e : string * string)
  : dict (list string) :=
  dict_setitem (fst e)
    (match dict_get (fst e) d with
     | Some l => l ++ [snd e]
     | None => [snd e]
     end) d.

Definition group (edges : list (string * string)) : dict (list string) :=
  fold_left group_step edges [].

(** The number of entries over all value lists. *)
Definition entries (d : dict (list string)) : nat :=
  list_sum (map (fun v => List.length v) (values d)).

(** Comparison of two items by their keys alone. *)
Definition key_ltb (a b : string * list string) : bool :=
  String.ltb (fst a) (fst b).

(** The sorted keys of the grouping, each with its sorted suffixes. *)
Definition adjacency (edges : list (string * string)) : dict (list string) :=
  map (fun k => (k, sorted String.ltb (suffixes_of k edges)))
      (sorted String.ltb (keys (group edges))).

(** The k-mers of the input whose edge is [(p, s)]. *)
Definition kmers_of_edge (p s : string) (Patterns : list string) : list string :=
  filter (fun kmer => String.eqb (Prefix kmer) p && String.eqb (Suffix kmer) s) Patterns.

(** ** The rest of the script: rendering and reading *)

(** The characters written [\n] and [\r] in the source. *)
Definition newline : ascii := ascii_of_nat 10.
Definition carriage_return : ascii := ascii_of_nat 13.

(** [sep.join(l)] is [String.concat sep l]. *)

(** [f"{k} -> {', '.join(v)}"] *)
Definition format_item (kv : string * list string) : string :=
  (fst kv ++ " -> " ++ String.concat ", " (snd kv))%string.

Definition adj_list_to_string (overlap_adj_list : dict (list string)) : string :=
  String.concat (String newline "") (map format_item (items overlap_adj_list)).

(** [c.isspace()], on the characters of the model: codes 9 to 13, 28 to 32,
    133 and 160. *)
Definition isspace (c : ascii) : bool :=
  let n := nat_of_ascii c in
  (Nat.leb 9 n && Nat.leb n 13) || (Nat.leb 28 n && Nat.leb n 32)
  || Nat.eqb n 133 || Nat.eqb n 160.

(** [s.lstrip()], [s.rstrip()] and [s.strip()] *)
Fixpoint lstrip (s : string) : string :=
  match s with
  | "" => ""
  | String c s' => if isspace c then lstrip s' else s
  end.

Fixpoint rstrip (s : string) : string :=
  match s with
  | "" => ""
  | String c s' =>
      match rstrip s' with
      | "" => if isspace c then "" else String c ""
      | r => String c r
      end
  end.

Definition strip (s : string) : string := rstrip (lstrip s).

(** What a file opened with ["r"] hands over: [\r\n] and [\r] both read as
    [\n]. *)
Fixpoint universal_newlines (s : string) : string :=
  match s with
  | "" => ""
  | String c s' =>
      if Ascii.eqb c carriage_return then
        match s' with
        | "" => String newline ""
        | String c' s'' =>
            if Ascii.eqb c' newline then String newline (universal_newlines s'')
            else String newline (universal_newlines s')
        end
      else String c (universal_newlines s')
  end.

(** [for line in file]: every line keeps its [\n]; a last line with no [\n]
    is a line too. *)
Fixpoint readlines (s : string) : list string :=
  match s with
  | "" => []
  | String c s' =>
      if Ascii.eqb c newline then String c "" :: readlines s'
      else match readlines s' with
           | [] => [String c ""]
           | line :: lines => String c line :: lines
           end
  end.

(** The files that [open] finds, each with its decoded text; [open] fails
    on the others. *)
Definition filesystem : Type := string -> option string.

Definition read_kmers_from_file (fs : filesystem) (filename : string)
  : option (list string) :=
  match fs filename with
  | None => None
  | Some text =>
      let file := readlines (universal_newlines text) in
      let kmers :=
        map strip (filter (fun line => negb (String.eqb (strip line) "")) file) in
      Some kmers
  end.

(** The example usage that ends the script, up to [graph_str]. *)
Definition filename : string := "Devoir/Datasets/05_dataset.txt".

Definition example_usage (fs : filesystem) : option (result string) :=
  match read_kmers_from_file fs filename with
  | None => None
  | Some kmers =>
      Some (adj_list <- DeBruijn kmers ;;
            let graph_str := adj_list_to_string adj_list in
            Ok graph_str)
  end.

(** ** Further notions used to state the properties *)

(** The number of times [c] occurs in [s]. *)
Fixpoint occurs (c : ascii) (s : string) : nat :=
  match s with
  | "" => 0
  | String c' s' => (if Ascii.eqb c' c then 1 else 0) + occurs c s'
  end.

(** The edges a dictionary stands for: one per entry of a value list. *)
Definition edges_of (d : dict (list string)) : list (string * string) :=
  flat_map (fun kv => map (pair (fst kv)) (snd kv)) d.

(** The comprehension of [read_kmers_from_file], on the lines of the
    file. *)
Definition stripped_lines (file : list string) : list string :=
  map strip (filter (fun line => negb (String.eqb (strip line) "")) file).

(** Nothing but white space. *)
Fixpoint blank (s : string) : bool :=
  match s with
  | "" => true
  | String c s' => isspace c && blank s'
  end.

(** A k-mer as a line of a file holds it: not empty, no blank at either
    end, no line break inside. *)
Definition clean (kmer : string) : Prop :=
  kmer <> "" /\ strip kmer = kmer
  /\ occurs newline kmer = 0 /\ occurs carriage_return kmer = 0.

(** * Properties *)

(** ** Slices *)

Lemma substring_whole (s t : string) :
  substring 0 (String.length s) (s ++ t)%string = s.
Proof.
  induction s as [|c s IH]; simpl.
  - destruct t; reflexivity.
  - now rewrite IH.
Qed.

Lemma length_append (s t : string) :
  String.length (s ++ t)%string = String.length s + String.length t.
Proof. induction s; simpl; auto. Qed.

Lemma append_empty_r (s : string) : (s ++ "")%string = s.
Proof. induction s; simpl; congruence. Qed.

Lemma Prefix_empty : Prefix "" = "".
Proof. reflexivity. Qed.

Lemma Suffix_empty : Suffix "" = "".
Proof. reflexivity. Qed.

Lemma Prefix_snoc (s : string) (c : ascii) : Prefix (s ++ String c "")%string = s.
Proof.
  unfold Prefix. rewrite length_append. simpl.
  replace (String.length s + 1 - 1) with (String.length s) by lia.
  apply substring_whole.
Qed.

Lemma Suffix_cons (c : ascii) (s : string) : Suffix (String c s) = s.
Proof.
  unfold Suffix. simpl. rewrite Nat.sub_0_r.
  rewrite <- (append_empty_r s) at 2. rewrite substring_whole. reflexivity.
Qed.

Lemma Prefix_cons (a b : ascii) (s : string) :
  Prefix (String a (String b s)) = String a (Prefix (String b s)).
Proof. unfold Prefix. simpl. now rewrite Nat.sub_0_r. Qed.

Lemma Prefix_single (c : ascii) : Prefix (String c "") = "".
Proof. reflexivity. Qed.

Lemma Suffix_single (c : ascii) : Suffix (String c "") = "".
Proof. reflexivity. Qed.

(** A k-mer with at least two symbols is determined by its edge. *)
Lemma edge_injective (kmer kmer' : string) :
  2 <= String.length kmer ->
  Prefix kmer' = Prefix kmer -> Suffix kmer' = Suffix kmer -> kmer' = kmer.
Proof.
  destruct kmer as [|a [|b r]]; simpl; try lia.
  intros _ HP HS. rewrite Prefix_cons in HP. rewrite Suffix_cons in HS.
  destruct kmer' as [|a' s'].
  - discriminate HP.
  - rewrite Suffix_cons in HS. subst s'. rewrite Prefix_cons in HP.
    congruence.
Qed.

Lemma CompositionGraph_loop (Patterns : list string) (acc : list (string * string)) :
  fold_left (fun edges kmer => edges ++ [(Prefix kmer, Suffix kmer)]) Patterns acc
  = acc ++ map (fun kmer => (Prefix kmer, Suffix kmer)) Patterns.
Proof.
  revert acc. induction Patterns as [|k P IH]; intros acc; simpl.
  - now rewrite app_nil_r.
  - rewrite IH, <- app_assoc. reflexivity.
Qed.

Lemma CompositionGraph_map (Patterns : list string) :
  CompositionGraph Patterns = map (fun kmer => (Prefix kmer, Suffix kmer)) Patterns.
Proof. unfold CompositionGraph. now rewrite CompositionGraph_loop. Qed.

(** ** The order on strings *)

Lemma ltb_Lt (a b : string) : String.ltb a b = true <-> String.compare a b = Lt.
Proof. unfold String.ltb. destruct (String.compare a b); split; congruence. Qed.

Lemma compare_refl (a : string) : String.compare a a = Eq.
Proof.
  induction a as [|c a IH]; simpl; auto.
  unfold Ascii.compare. now rewrite N.compare_refl.
Qed.

Lemma compare_Lt_trans (a b c : string) :
  String.compare a b = Lt -> String.compare b c = Lt -> String.compare a c = Lt.
Proof.
  revert b c. induction a as [|x a IH]; intros [|y b] [|z c]; simpl; try congruence.
  unfold Ascii.compare.
  destruct (N.compare_spec (N_of_ascii x) (N_of_ascii y));
    destruct (N.compare_spec (N_of_ascii y) (N_of_ascii z));
    destruct (N.compare_spec (N_of_ascii x) (N_of_ascii z));
    intros; try discriminate; try reflexivity; try lia; eauto.
Qed.

Lemma str_lt_irrefl (a : string) : String.ltb a a = false.
Proof. unfold String.ltb. now rewrite compare_refl. Qed.

Lemma str_lt_trans (a b c : string) : str_lt a b -> str_lt b c -> str_lt a c.
Proof. unfold str_lt. rewrite !ltb_Lt. apply compare_Lt_trans. Qed.

Lemma str_lt_asym (a b : string) : String.ltb a b = true -> String.ltb b a = false.
Proof.
  intros H. destruct (String.ltb b a) eqn:E; auto.
  pose proof (str_lt_trans _ _ _ H E) as F. unfold str_lt in F.
  rewrite str_lt_irrefl in F. discriminate.
Qed.

Lemma str_trichotomy (a b : string) :
  String.ltb a b = false -> String.ltb b a = false -> a = b.
Proof.
  unfold String.ltb. rewrite (String.compare_antisym b a).
  destruct (String.compare a b) eqn:E; simpl; try discriminate.
  intros _ _. now apply String.compare_eq_iff.
Qed.

Lemma str_le_refl (a : string) : str_le a a.
Proof. apply str_lt_irrefl. Qed.

Lemma str_le_trans (a b c : string) : str_le a b -> str_le b c -> str_le a c.
Proof.
  unfold str_le. intros Hab Hbc.
  destruct (String.ltb c a) eqn:Hca; auto.
  destruct (String.ltb a b) eqn:Hlt.
  - pose proof (str_lt_trans _ _ _ Hca Hlt) as F. unfold str_lt in F. congruence.
  - assert (a = b) by now apply str_trichotomy. subst. congruence.
Qed.

Lemma str_le_antisym (a b : string) : str_le a b -> str_le b a -> a = b.
Proof. unfold str_le. intros. now apply str_trichotomy. Qed.

Lemma str_le_neq_lt (a b : string) : str_le a b -> a <> b -> str_lt a b.
Proof.
  unfold str_le, str_lt. intros H N.
  destruct (String.ltb a b) eqn:E; auto.
  exfalso. apply N. now apply str_trichotomy.
Qed.

(** ** [sorted] *)

Section SortedFacts.

Context {A : Type}.
Variable lt : A -> A -> bool.

Lemma insert_Permutation (x : A) (l : list A) :
  Permutation (insert lt x l) (x :: l).
Proof.
  induction l as [|y l IH]; simpl; auto.
  destruct (lt y x); auto.
  rewrite IH. apply perm_swap.
Qed.

Lemma sorted_Permutation (l : list A) : Permutation (sorted lt l) l.
Proof.
  induction l as [|x l IH]; simpl; auto.
  rewrite insert_Permutation. now constructor.
Qed.

Lemma sorted_In (x : A) (l : list A) : In x (sorted lt l) <-> In x l.
Proof.
  split; apply Permutation_in;
    [ | symmetry ]; apply sorted_Permutation.
Qed.

Lemma sorted_length (l : list A) :
  List.length (sorted lt l) = List.length l.
Proof. apply Permutation_length, sorted_Permutation. Qed.

End SortedFacts.

(** Two comparisons that agree wherever the sort consults them give the
    same result: an element is only ever compared with the elements behind
    it. *)
Lemma insert_ext {A : Type} (lt1 lt2 : A -> A -> bool) (x : A) (l : list A) :
  Forall (fun y => lt1 y x = lt2 y x) l -> insert lt1 x l = insert lt2 x l.
Proof.
  induction 1 as [|y l Hy Hl IH]; simpl; auto.
  rewrite Hy, IH. reflexivity.
Qed.

Lemma sorted_ext {A : Type} (lt1 lt2 : A -> A -> bool) (l : list A) :
  ForallOrdPairs (fun x y => lt1 y x = lt2 y x) l -> sorted lt1 l = sorted lt2 l.
Proof.
  induction 1 as [|x l Hx Hl IH]; simpl; auto.
  rewrite IH. apply insert_ext.
  rewrite Forall_forall in *. intros y Hy. apply Hx.
  now apply (sorted_In lt2).
Qed.

Lemma insert_map {A B : Type} (f : A -> B) (ltA : A -> A -> bool)
      (ltB : B -> B -> bool) (x : A) (l : list A) :
  (forall a b, ltA a b = ltB (f a) (f b)) ->
  map f (insert ltA x l) = insert ltB (f x) (map f l).
Proof.
  intros H. induction l as [|y l IH]; simpl; auto.
  rewrite <- H. destruct (ltA y x); simpl; congruence.
Qed.

Lemma sorted_map {A B : Type} (f : A -> B) (ltA : A -> A -> bool)
      (ltB : B -> B -> bool) (l : list A) :
  (forall a b, ltA a b = ltB (f a) (f b)) ->
  map f (sorted ltA l) = sorted ltB (map f l).
Proof.
  intros H. induction l as [|x l IH]; simpl; auto.
  rewrite (insert_map f ltA ltB) by assumption. now rewrite IH.
Qed.

(** On strings the result is ordered, and it is the only ordered
    rearrangement of the argument. *)
Lemma insert_StronglySorted (x : string) (l : list string) :
  StronglySorted str_le l -> StronglySorted str_le (insert String.ltb x l).
Proof.
  induction 1 as [|y l Hl IH Hy]; simpl.
  - repeat constructor.
  - destruct (String.ltb y x) eqn:E.
    + constructor; auto.
      rewrite Forall_forall in *. intros z Hz.
      apply (Permutation_in _ (insert_Permutation String.ltb x l)) in Hz.
      destruct Hz as [<-|Hz]; auto. now apply str_lt_asym.
    + constructor.
      * now constructor.
      * constructor; auto.
        eapply Forall_impl; [|exact Hy]. intros z. now apply str_le_trans.
Qed.

Lemma sorted_StronglySorted (l : list string) :
  StronglySorted str_le (sorted String.ltb l).
Proof.
  induction l; simpl.
  - constructor.
  - now apply insert_StronglySorted.
Qed.

Lemma StronglySorted_unique (l1 l2 : list string) :
  Permutation l1 l2 ->
  StronglySorted str_le l1 -> StronglySorted str_le l2 -> l1 = l2.
Proof.
  revert l2. induction l1 as [|a l1 IH]; intros l2 HP H1 H2.
  - now apply Permutation_nil in HP.
  - destruct l2 as [|b l2].
    + symmetry in HP. now apply Permutation_nil in HP.
    + inversion H1 as [|? ? S1 F1]; inversion H2 as [|? ? S2 F2]; subst.
      rewrite Forall_forall in F1, F2.
      assert (a = b) as ->.
      { assert (In a (b :: l2)) as [->|Ha]
            by (eapply Permutation_in; [exact HP|now left]); auto.
        assert (In b (a :: l1)) as [->|Hb]
            by (eapply Permutation_in; [symmetry; exact HP|now left]); auto.
        apply str_le_antisym; auto. }
      f_equal. apply IH; auto. now apply Permutation_cons_inv in HP.
Qed.

Lemma sorted_Permutation_eq (l1 l2 : list string) :
  Permutation l1 l2 -> sorted String.ltb l1 = sorted String.ltb l2.
Proof.
  intros HP. apply StronglySorted_unique; try apply sorted_StronglySorted.
  rewrite !sorted_Permutation. exact HP.
Qed.

Lemma StronglySorted_strict (l : list string) :
  StronglySorted str_le l -> NoDup l -> StronglySorted str_lt l.
Proof.
  induction 1 as [|a l Hl IH Ha]; intros ND; constructor;
    inversion ND as [|? ? Hn ND']; subst; auto.
  rewrite Forall_forall in *. intros b Hb.
  apply str_le_neq_lt; auto. intros ->. contradiction.
Qed.

(** ** Dictionaries *)

Section DictFacts.

Context {V : Type}.
Implicit Types (d : dict V) (k : string) (v : V).

Lemma dict_get_In k v d : dict_get k d = Some v -> In (k, v) d.
Proof.
  induction d as [|[k' v'] d IH]; simpl; try discriminate.
  destruct (String.eqb_spec k' k) as [->|N].
  - intros [= ->]. now left.
  - intros H. right. auto.
Qed.

Lemma dict_get_None k d : dict_get k d = None <-> ~ In k (keys d).
Proof.
  induction d as [|[k' v'] d IH]; simpl.
  - tauto.
  - destruct (String.eqb_spec k' k) as [->|N].
    + split; [discriminate | intros H; exfalso; apply H; now left].
    + rewrite IH. tauto.
Qed.

Lemma dict_get_keys k d : In k (keys d) <-> exists v, dict_get k d = Some v.
Proof.
  destruct (dict_get k d) as [v|] eqn:E.
  - split; eauto. intros _.
    apply dict_get_In in E. apply (in_map fst) in E. exact E.
  - apply dict_get_None in E. split; [tauto | intros [v Hv]; discriminate].
Qed.

Lemma In_dict_get k v d : NoDup (keys d) -> In (k, v) d -> dict_get k d = Some v.
Proof.
  induction d as [|[k' v'] d IH]; simpl; try tauto.
  intros ND [E|Hin]; inversion ND as [|? ? Hn ND']; subst.
  - inversion E; subst. now rewrite String.eqb_refl.
  - destruct (String.eqb_spec k' k) as [->|N]; auto.
    exfalso. apply Hn. now apply (in_map fst) in Hin.
Qed.

Lemma dict_get_setitem k k' v d :
  dict_get k' (dict_setitem k v d)
  = if String.eqb k k' then Some v else dict_get k' d.
Proof.
  induction d as [|[k0 v0] d IH]; simpl.
  - reflexivity.
  - destruct (String.eqb_spec k0 k) as [->|N]; simpl.
    + destruct (String.eqb k k'); reflexivity.
    + rewrite IH. destruct (String.eqb_spec k0 k') as [->|N'];
        destruct (String.eqb_spec k k') as [->|N'']; congruence.
Qed.

Lemma dict_setitem_new k v d :
  ~ In k (keys d) -> dict_setitem k v d = d ++ [(k, v)].
Proof.
  induction d as [|[k0 v0] d IH]; simpl; auto.
  intros H. destruct (String.eqb_spec k0 k) as [->|N].
  - exfalso. apply H. now left.
  - rewrite IH; tauto.
Qed.

Lemma keys_setitem_old k v d :
  In k (keys d) -> keys (dict_setitem k v d) = keys d.
Proof.
  induction d as [|[k0 v0] d IH]; simpl; try tauto.
  intros H. destruct (String.eqb_spec k0 k) as [->|N]; simpl; auto.
  rewrite IH; tauto.
Qed.

Lemma NoDup_keys_setitem k v d :
  NoDup (keys d) -> NoDup (keys (dict_setitem k v d)).
Proof.
  intros ND. destruct (in_dec string_dec k (keys d)) as [Hin|Hout].
  - now rewrite keys_setitem_old.
  - rewrite dict_setitem_new by assumption.
    unfold keys. rewrite map_app. simpl.
    apply NoDup_app; auto.
    + repeat constructor. simpl. tauto.
    + intros x Hx [<-|[]]. contradiction.
Qed.

(** A comprehension over items with pairwise distinct keys lists them
    as they come. *)
Lemma dict_of_items_loop (its : list (string * V)) d :
  NoDup (keys d ++ keys its) ->
  fold_left (fun d kv => dict_setitem (fst kv) (snd kv) d) its d = d ++ its.
Proof.
  revert d. induction its as [|[k v] its IH]; intros d ND; simpl.
  - now rewrite app_nil_r.
  - simpl in ND. rewrite dict_setitem_new.
    + rewrite IH, <- app_assoc; auto.
      unfold keys in *. rewrite map_app, <- app_assoc. exact ND.
    + apply NoDup_remove_2 in ND. intros H. apply ND, in_or_app. now left.
Qed.

Lemma dict_of_items_NoDup (its : list (string * V)) :
  NoDup (keys its) -> dict_of_items its = its.
Proof. intros ND. unfold dict_of_items. now rewrite dict_of_items_loop. Qed.

End DictFacts.

(** ** The grouping loop *)

Lemma DeBruijn_body_Ok (d : dict (list string)) (e : string * string) :
  DeBruijn_body d e = Ok (group_step d e).
Proof.
  destruct e as [p s]. unfold DeBruijn_body, group_step, dict_contains, dict_getitem.
  simpl. destruct (dict_get p d); reflexivity.
Qed.

Lemma for_each_DeBruijn_body (edges : list (string * string)) (d : dict (list string)) :
  for_each DeBruijn_body edges d = Ok (fold_left group_step edges d).
Proof.
  revert d. induction edges as [|e edges IH]; intros d; simpl; auto.
  rewrite DeBruijn_body_Ok. simpl. apply IH.
Qed.

Lemma NoDup_keys_loop (edges : list (string * string)) (d : dict (list string)) :
  NoDup (keys d) -> NoDup (keys (fold_left group_step edges d)).
Proof.
  revert d. induction edges as [|e edges IH]; intros d ND; simpl; auto.
  apply IH. now apply NoDup_keys_setitem.
Qed.

Lemma NoDup_keys_group (edges : list (string * string)) : NoDup (keys (group edges)).
Proof. apply NoDup_keys_loop. constructor. Qed.

Lemma dict_get_loop (k : string) (edges : list (string * string)) (d : dict (list string)) :
  dict_get k (fold_left group_step edges d)
  = match dict_get k d, suffixes_of k edges with
    | Some l, sfx => Some (l ++ sfx)
    | None, [] => None
    | None, sfx => Some sfx
    end.
Proof.
  revert d. induction edges as [|[p s] edges IH]; intros d.
  - simpl. destruct (dict_get k d); auto. now rewrite app_nil_r.
  - cbn [fold_left]. rewrite IH. unfold group_step, suffixes_of.
    cbn [fst snd filter]. rewrite dict_get_setitem.
    destruct (String.eqb_spec p k) as [->|N]; cbn [map snd].
    + destruct (dict_get k d); simpl; auto. now rewrite <- app_assoc.
    + reflexivity.
Qed.

Lemma dict_get_group (k : string) (edges : list (string * string)) :
  dict_get k (group edges)
  = match suffixes_of k edges with [] => None | sfx => Some sfx end.
Proof. unfold group. rewrite dict_get_loop. reflexivity. Qed.

Lemma suffixes_of_nil (k : string) (edges : list (string * string)) :
  suffixes_of k edges = [] <-> ~ In k (map fst edges).
Proof.
  unfold suffixes_of. induction edges as [|[p s] edges IH]; simpl.
  - tauto.
  - destruct (String.eqb_spec p k) as [->|N]; simpl.
    + split; [discriminate | intros H; exfalso; apply H; now left].
    + rewrite IH. tauto.
Qed.

Lemma keys_group (k : string) (edges : list (string * string)) :
  In k (keys (group edges)) <-> In k (map fst edges).
Proof.
  rewrite dict_get_keys, dict_get_group.
  pose proof (suffixes_of_nil k edges) as H.
  destruct (suffixes_of k edges) as [|s sfx].
  - split; [intros [v Hv]; discriminate | intros Hin].
    exfalso. now apply H.
  - split; eauto. intros _.
    destruct (in_dec string_dec k (map fst edges)) as [Hin|Hout]; auto.
    apply H in Hout. discriminate.
Qed.

Lemma In_group (k : string) (v : list string) (edges : list (string * string)) :
  In (k, v) (group edges) -> v = suffixes_of k edges /\ v <> [].
Proof.
  intros Hin. apply In_dict_get in Hin; [|apply NoDup_keys_group].
  rewrite dict_get_group in Hin.
  destruct (suffixes_of k edges); inversion Hin; subst. split; congruence.
Qed.

Lemma entries_group_step (d : dict (list string)) (e : string * string) :
  entries (group_step d e) = S (entries d).
Proof.
  destruct e as [p s]. unfold group_step, entries, values. simpl.
  induction d as [|[k v] d IH]; simpl; auto.
  destruct (String.eqb_spec k p) as [->|N]; simpl.
  - rewrite length_app. simpl. lia.
  - rewrite IH. lia.
Qed.

Lemma entries_loop (edges : list (string * string)) (d : dict (list string)) :
  entries (fold_left group_step edges d) = entries d + List.length edges.
Proof.
  revert d. induction edges as [|e edges IH]; intros d; simpl.
  - lia.
  - rewrite IH, entries_group_step. lia.
Qed.

Lemma entries_group (edges : list (string * string)) :
  entries (group edges) = List.length edges.
Proof. unfold group. now rewrite entries_loop. Qed.

(** ** The result of [DeBruijn] in closed form *)

(** Items with pairwise distinct keys never have their values compared. *)
Lemma sorted_items_by_key (d : dict (list string)) :
  NoDup (keys d) -> sorted item_ltb (items d) = sorted key_ltb d.
Proof.
  intros ND. apply sorted_ext. unfold items.
  induction d as [|x d IH]; simpl in *; constructor;
    inversion ND as [|? ? Hn ND']; subst; auto.
  rewrite Forall_forall. intros y Hy. unfold item_ltb, key_ltb.
  destruct (String.eqb_spec (fst y) (fst x)) as [E|N]; auto.
  exfalso. apply Hn. rewrite <- E. now apply in_map.
Qed.

Lemma keys_sorted_by_key (d : dict (list string)) :
  keys (sorted key_ltb d) = sorted String.ltb (keys d).
Proof. unfold keys. now apply sorted_map. Qed.

Lemma keys_adjacency (edges : list (string * string)) :
  keys (adjacency edges) = sorted String.ltb (keys (group edges)).
Proof.
  unfold adjacency, keys at 1. rewrite map_map. simpl. apply map_id.
Qed.

Lemma NoDup_keys_adjacency (edges : list (string * string)) :
  NoDup (keys (adjacency edges)).
Proof.
  rewrite keys_adjacency.
  eapply Permutation_NoDup; [symmetry; apply sorted_Permutation|].
  apply NoDup_keys_group.
Qed.

Lemma In_keys_adjacency (k : string) (edges : list (string * string)) :
  In k (keys (adjacency edges)) <-> In k (map fst edges).
Proof. now rewrite keys_adjacency, sorted_In, keys_group. Qed.

Lemma sorted_group_adjacency (edges : list (string * string)) :
  map (fun kv => (fst kv, sorted String.ltb (snd kv))) (sorted key_ltb (group edges))
  = adjacency edges.
Proof.
  unfold adjacency. rewrite <- keys_sorted_by_key. unfold keys.
  rewrite map_map. apply map_ext_in. intros [k v] Hin. simpl.
  apply sorted_In, In_group in Hin. destruct Hin as [-> _]. reflexivity.
Qed.

Theorem DeBruijn_Ok (Patterns : list string) :
  DeBruijn Patterns = Ok (adjacency (CompositionGraph Patterns)).
Proof.
  unfold DeBruijn. rewrite for_each_DeBruijn_body. simpl.
  fold (group (CompositionGraph Patterns)).
  rewrite sorted_items_by_key by apply NoDup_keys_group.
  rewrite sorted_group_adjacency.
  rewrite dict_of_items_NoDup by apply NoDup_keys_adjacency.
  reflexivity.
Qed.

Lemma dict_get_adjacency (k : string) (edges : list (string * string)) :
  In k (map fst edges) ->
  dict_get k (adjacency edges) = Some (sorted String.ltb (suffixes_of k edges)).
Proof.
  intros Hin. apply In_dict_get; [apply NoDup_keys_adjacency|].
  unfold adjacency.
  apply (in_map (fun k => (k, sorted String.ltb (suffixes_of k edges)))).
  now apply sorted_In, keys_group.
Qed.

Lemma In_adjacency (k : string) (v : list string) (edges : list (string * string)) :
  In (k, v) (adjacency edges) ->
  In k (map fst edges) /\ v = sorted String.ltb (suffixes_of k edges).
Proof.
  unfold adjacency. rewrite in_map_iff. intros [k' [[= -> <-] Hin]].
  split; auto. now apply sorted_In, keys_group in Hin.
Qed.

Lemma entries_adjacency (edges : list (string * string)) :
  entries (adjacency edges) = List.length edges.
Proof.
  rewrite <- entries_group. unfold entries, values, adjacency.
  rewrite !map_map. simpl.
  rewrite (Permutation_map _ (sorted_Permutation String.ltb (keys (group edges)))).
  unfold keys. rewrite map_map. f_equal. apply map_ext_in.
  intros [k v] Hin. simpl. apply In_group in Hin. destruct Hin as [-> _].
  apply sorted_length.
Qed.

(** ** Rearranging the input *)

Lemma Permutation_filter {A : Type} (f : A -> bool) (l1 l2 : list A) :
  Permutation l1 l2 -> Permutation (filter f l1) (filter f l2).
Proof.
  induction 1 as [|x l1 l2 HP IH|x y l|l1 l2 l3 H12 IH12 H23 IH23]; simpl.
  - constructor.
  - destruct (f x); auto.
  - destruct (f x), (f y); auto. apply perm_swap.
  - now transitivity (filter f l2).
Qed.

Lemma suffixes_of_Permutation (k : string) (e1 e2 : list (string * string)) :
  Permutation e1 e2 -> Permutation (suffixes_of k e1) (suffixes_of k e2).
Proof. intros HP. unfold suffixes_of. now apply Permutation_map, Permutation_filter. Qed.

Lemma keys_group_Permutation (e1 e2 : list (string * string)) :
  Permutation e1 e2 -> Permutation (keys (group e1)) (keys (group e2)).
Proof.
  intros HP. apply NoDup_Permutation; try apply NoDup_keys_group.
  intros k. rewrite !keys_group.
  split; apply Permutation_in; [|symmetry]; now apply Permutation_map.
Qed.

Lemma adjacency_Permutation (e1 e2 : list (string * string)) :
  Permutation e1 e2 -> adjacency e1 = adjacency e2.
Proof.
  intros HP. unfold adjacency.
  rewrite (sorted_Permutation_eq _ _ (keys_group_Permutation _ _ HP)).
  apply map_ext. intros k. f_equal.
  now apply sorted_Permutation_eq, suffixes_of_Permutation.
Qed.

(** ** Counting edges *)

Lemma count_occ_suffixes_of (p s : string) (Patterns : list string) :
  count_occ string_dec (suffixes_of p (CompositionGraph Patterns)) s
  = List.length (kmers_of_edge p s Patterns).
Proof.
  rewrite CompositionGraph_map. unfold suffixes_of, kmers_of_edge.
  induction Patterns as [|k P IH]; simpl; auto.
  destruct (String.eqb_spec (Prefix k) p) as [E|N]; simpl; auto.
  destruct (string_dec (Suffix k) s) as [E'|N'];
    destruct (String.eqb_spec (Suffix k) s); try contradiction; simpl; auto.
Qed.

Lemma kmers_of_edge_count_occ (kmer : string) (Patterns : list string) :
  2 <= String.length kmer ->
  List.length (kmers_of_edge (Prefix kmer) (Suffix kmer) Patterns)
  = count_occ string_dec Patterns kmer.
Proof.
  intros Hlen. unfold kmers_of_edge.
  induction Patterns as [|k P IH]; simpl; auto.
  destruct (string_dec k kmer) as [->|N].
  - rewrite !String.eqb_refl. simpl. now rewrite IH.
  - destruct (String.eqb_spec (Prefix k) (Prefix kmer)) as [E1|N1]; simpl; auto.
    destruct (String.eqb_spec (Suffix k) (Suffix kmer)) as [E2|N2]; simpl; auto.
    exfalso. apply N. now apply edge_injective.
Qed.

(** ** Orders, as stated with [String.ltb] and [String.leb] *)

Lemma str_le_leb (a b : string) : str_le a b <-> String.leb a b = true.
Proof.
  unfold str_le, String.ltb, String.leb. rewrite (String.compare_antisym a b).
  destruct (String.compare b a); simpl; split; congruence.
Qed.

Lemma StronglySorted_impl {A : Type} (R S : A -> A -> Prop) (l : list A) :
  (forall a b, R a b -> S a b) -> StronglySorted R l -> StronglySorted S l.
Proof.
  intros H. induction 1 as [|a l Hl IH Ha]; constructor; auto.
  eapply Forall_impl; [|exact Ha]. auto.
Qed.

(** Every k-mer of the input has its edge in the closed form. *)
Lemma adjacency_edge (kmer : string) (Patterns : list string) :
  In kmer Patterns ->
  exists v,
    dict_get (Prefix kmer) (adjacency (CompositionGraph Patterns)) = Some v
    /\ In (Suffix kmer) v.
Proof.
  intros Hin.
  assert (Hp : In (Prefix kmer) (map fst (CompositionGraph Patterns))).
  { rewrite CompositionGraph_map, map_map. simpl. now apply (in_map Prefix). }
  eexists. split; [now apply dict_get_adjacency|].
  apply sorted_In. unfold suffixes_of. rewrite CompositionGraph_map.
  apply in_map_iff. exists (Prefix kmer, Suffix kmer). split; auto.
  apply filter_In. simpl. rewrite String.eqb_refl. split; auto.
  now apply (in_map (fun kmer => (Prefix kmer, Suffix kmer))).
Qed.

(** * The specification, claim by claim *)

(** C1 (as listed): for [listKmer] the result would have the key set
    {AGG, CAG, GAG, GGA, GGG} with AGG -> [GGG], CAG -> [AGG, AGG],
    GAG -> [AGG], GGA -> [GGG] and GGG -> [GAG, GGA].  The program binds
    GGA and GGG to other lists, so no result of that shape exists. *)
Lemma DeBruijn_listKmer_not_as_listed :
  ~ exists d,
      DeBruijn listKmer = Ok d
      /\ (forall k, In k (keys d) <-> In k ["AGG"; "CAG"; "GAG"; "GGA"; "GGG"])
      /\ dict_get "AGG" d = Some ["GGG"]
      /\ dict_get "CAG" d = Some ["AGG"; "AGG"]
      /\ dict_get "GAG" d = Some ["AGG"]
      /\ dict_get "GGA" d = Some ["GGG"]
      /\ dict_get "GGG" d = Some ["GAG"; "GGA"].
Proof.
  intros (d & Hd & _ & _ & _ & _ & HGGA & _).
  vm_compute in Hd. injection Hd as <-.
  vm_compute in HGGA. discriminate HGGA.
Qed.

(** C1 (amended): for [listKmer] the result has the keys AGG, CAG, GAG, GGA,
    GGG, in that order, with AGG -> [GGG], CAG -> [AGG, AGG], GAG -> [AGG],
    GGA -> [GAG] and GGG -> [GGA, GGG], every value list sorted. *)
Theorem DeBruijn_listKmer :
  DeBruijn listKmer
  = Ok [("AGG", ["GGG"]); ("CAG", ["AGG"; "AGG"]); ("GAG", ["AGG"]);
        ("GGA", ["GAG"]); ("GGG", ["GGA"; "GGG"])]
  /\ exists d,
      DeBruijn listKmer = Ok d
      /\ (forall k, In k (keys d) <-> In k ["AGG"; "CAG"; "GAG"; "GGA"; "GGG"])
      /\ dict_get "AGG" d = Some ["GGG"]
      /\ dict_get "CAG" d = Some ["AGG"; "AGG"]
      /\ dict_get "GAG" d = Some ["AGG"]
      /\ dict_get "GGA" d = Some ["GAG"]
      /\ dict_get "GGG" d = Some ["GGA"; "GGG"]
      /\ Forall (StronglySorted (fun a b => String.leb a b = true)) (values d).
Proof.
  split; [reflexivity|].
  eexists. split; [reflexivity|].
  split; [intros k; simpl; tauto|].
  repeat (split; [reflexivity|]).
  repeat constructor.
Qed.

(** C2: for every input of n k-mers, the lengths of the value lists of the
    result of [DeBruijn] add up to n. *)
Theorem DeBruijn_entries (Patterns : list string) :
  exists d, DeBruijn Patterns = Ok d /\ entries d = List.length Patterns.
Proof.
  exists (adjacency (CompositionGraph Patterns)). split.
  - apply DeBruijn_Ok.
  - rewrite entries_adjacency, CompositionGraph_map. apply length_map.
Qed.

(** C3: [DeBruijn] returns the same dictionary, keys in the same order and
    each with the same value list, for an input and for any rearrangement
    of it. *)
Theorem DeBruijn_Permutation (Patterns Patterns' : list string) :
  Permutation Patterns Patterns' ->
  exists d, DeBruijn Patterns = Ok d /\ DeBruijn Patterns' = Ok d.
Proof.
  intros HP. exists (adjacency (CompositionGraph Patterns)).
  rewrite !DeBruijn_Ok. split; auto. f_equal.
  symmetry. apply adjacency_Permutation.
  rewrite !CompositionGraph_map. now apply Permutation_map.
Qed.

Lemma DeBruijn_Permutation_witness :
  Permutation ["GAGG"; "CAGG"; "GGGA"] ["CAGG"; "GAGG"; "GGGA"]
  /\ exists d,
      DeBruijn ["GAGG"; "CAGG"; "GGGA"] = Ok d
      /\ DeBruijn ["CAGG"; "GAGG"; "GGGA"] = Ok d.
Proof.
  assert (H : Permutation ["GAGG"; "CAGG"; "GGGA"] ["CAGG"; "GAGG"; "GGGA"])
    by apply perm_swap.
  split; [exact H | exact (DeBruijn_Permutation _ _ H)].
Defined.

(** C4: the keys of the result of [DeBruijn], in the order of the
    dictionary, increase strictly, and no value list ever decreases. *)
Theorem DeBruijn_sorted (Patterns : list string) :
  exists d,
    DeBruijn Patterns = Ok d
    /\ StronglySorted (fun a b => String.ltb a b = true) (keys d)
    /\ Forall (StronglySorted (fun a b => String.leb a b = true)) (values d).
Proof.
  exists (adjacency (CompositionGraph Patterns)).
  split; [apply DeBruijn_Ok|]. split.
  - apply (StronglySorted_strict (keys _)).
    + rewrite keys_adjacency. apply sorted_StronglySorted.
    + apply NoDup_keys_adjacency.
  - unfold values, adjacency. rewrite map_map. simpl.
    rewrite Forall_map, Forall_forall. intros k _.
    eapply StronglySorted_impl; [|apply sorted_StronglySorted].
    intros a b. apply str_le_leb.
Qed.

(** C5 (as stated, at one input): in ["A"; "C"] the k-mer "A" appears once,
    yet its suffix is found twice under its prefix. *)
Lemma DeBruijn_count_short_kmer :
  ~ exists d v,
      DeBruijn ["A"; "C"] = Ok d
      /\ dict_get (Prefix "A") d = Some v
      /\ count_occ string_dec v (Suffix "A") = count_occ string_dec ["A"; "C"] "A".
Proof.
  intros (d & v & Hd & Hv & Hc).
  vm_compute in Hd. injection Hd as <-.
  vm_compute in Hv. injection Hv as <-.
  vm_compute in Hc. discriminate Hc.
Qed.

(** C5 (amended): a k-mer of at least two symbols that appears m times in
    the input has its suffix exactly m times in the value list of its
    prefix. *)
Theorem DeBruijn_count (Patterns : list string) (kmer : string) :
  In kmer Patterns ->
  2 <= String.length kmer ->
  exists d v,
    DeBruijn Patterns = Ok d
    /\ dict_get (Prefix kmer) d = Some v
    /\ count_occ string_dec v (Suffix kmer) = count_occ string_dec Patterns kmer.
Proof.
  intros Hin Hlen.
  exists (adjacency (CompositionGraph Patterns)).
  exists (sorted String.ltb (suffixes_of (Prefix kmer) (CompositionGraph Patterns))).
  split; [apply DeBruijn_Ok|]. split.
  - apply dict_get_adjacency. rewrite CompositionGraph_map, map_map. simpl.
    now apply (in_map Prefix).
  - rewrite (proj1 (Permutation_count_occ string_dec _ _)
                     (sorted_Permutation String.ltb _)).
    rewrite count_occ_suffixes_of. now apply kmers_of_edge_count_occ.
Qed.

Lemma DeBruijn_count_witness :
  In "CAGG" listKmer
  /\ 2 <= String.length "CAGG"
  /\ exists d v,
      DeBruijn listKmer = Ok d
      /\ dict_get (Prefix "CAGG") d = Some v
      /\ count_occ string_dec v (Suffix "CAGG") = count_occ string_dec listKmer "CAGG".
Proof.
  assert (Hin : In "CAGG" listKmer) by (simpl; tauto).
  assert (Hlen : 2 <= String.length "CAGG") by (simpl; lia).
  split; [exact Hin|]. split; [exact Hlen|].
  exact (DeBruijn_count listKmer "CAGG" Hin Hlen).
Defined.

(** C6: [CompositionGraph] returns as many pairs as it is given k-mers; the
    pair at position i is the prefix and the suffix of the k-mer at
    position i, the prefix being the k-mer without its last symbol and the
    suffix the k-mer without its first one.  The result depends on the
    argument alone. *)
Theorem CompositionGraph_spec (Patterns : list string) :
  List.length (CompositionGraph Patterns) = List.length Patterns
  /\ (forall i,
        nth_error (CompositionGraph Patterns) i
        = option_map (fun kmer => (Prefix kmer, Suffix kmer)) (nth_error Patterns i))
  /\ (forall s c, Prefix (s ++ String c "")%string = s)
  /\ (forall c s, Suffix (String c s) = s).
Proof.
  rewrite CompositionGraph_map. split; [apply length_map|].
  split; [intros i; apply nth_error_map|].
  split; [apply Prefix_snoc | apply Suffix_cons].
Qed.

(** C7: the result of [DeBruijn] has one key per distinct prefix of the
    input: no key is repeated, a string is a key exactly when some k-mer of
    the input has it as prefix, and no value list is empty. *)
Theorem DeBruijn_keys (Patterns : list string) :
  exists d,
    DeBruijn Patterns = Ok d
    /\ NoDup (keys d)
    /\ (forall k, In k (keys d) <-> exists kmer, In kmer Patterns /\ Prefix kmer = k)
    /\ Forall (fun v => v <> []) (values d).
Proof.
  exists (adjacency (CompositionGraph Patterns)).
  split; [apply DeBruijn_Ok|]. split; [apply NoDup_keys_adjacency|]. split.
  - intros k. rewrite In_keys_adjacency, CompositionGraph_map, map_map. simpl.
    rewrite in_map_iff. firstorder.
  - unfold values. rewrite Forall_map, Forall_forall. intros [k v] Hin. simpl.
    apply In_adjacency in Hin. destruct Hin as [Hk ->].
    intros E. apply (f_equal (@List.length string)) in E.
    rewrite sorted_length in E. apply length_zero_iff_nil in E.
    now apply suffixes_of_nil in E.
Qed.

(** C8: on the empty sequence [DeBruijn] returns, without raising, the empty
    dictionary. *)
Theorem DeBruijn_nil : DeBruijn [] = Ok [].
Proof. reflexivity. Qed.

(** C9: [DeBruijn] raises nothing, whatever the strings it is given: it
    returns a dictionary in which every k-mer of the input, of any length,
    has its prefix as a key and its suffix in the list of that key. *)
Theorem DeBruijn_total (Patterns : list string) :
  exists d,
    DeBruijn Patterns = Ok d
    /\ Forall (fun kmer =>
                 exists v, dict_get (Prefix kmer) d = Some v /\ In (Suffix kmer) v)
              Patterns.
Proof.
  exists (adjacency (CompositionGraph Patterns)).
  split; [apply DeBruijn_Ok|].
  rewrite Forall_forall. intros kmer Hin. now apply adjacency_edge.
Qed.

(** Two k-mers of different lengths, side by side. *)
Example DeBruijn_mixed_lengths :
  DeBruijn ["ABC"; "AB"; "ABCD"]
  = Ok [("A", ["B"]); ("AB", ["BC"]); ("ABC", ["BCD"])].
Proof. reflexivity. Qed.

(** C10: the empty string has the empty string as prefix and as suffix,
    like a k-mer of a single symbol; when it occurs in the input, the
    result of [DeBruijn] has the empty string as a key, and the empty
    string in the list of that key. *)
Theorem DeBruijn_empty_kmer (Patterns : list string) :
  In "" Patterns ->
  Prefix "" = "" /\ Suffix "" = ""
  /\ (forall c, Prefix (String c "") = "" /\ Suffix (String c "") = "")
  /\ exists d v,
      DeBruijn Patterns = Ok d /\ dict_get "" d = Some v /\ In "" v.
Proof.
  intros Hin. repeat (split; [reflexivity|]). split; [intros c; split; reflexivity|].
  destruct (adjacency_edge _ _ Hin) as (v & Hv & Hs).
  exists (adjacency (CompositionGraph Patterns)), v.
  split; [apply DeBruijn_Ok | auto].
Qed.

Lemma DeBruijn_empty_kmer_witness :
  In "" ["GAGG"; ""]
  /\ Prefix "" = "" /\ Suffix "" = ""
  /\ (forall c, Prefix (String c "") = "" /\ Suffix (String c "") = "")
  /\ exists d v,
      DeBruijn ["GAGG"; ""] = Ok d /\ dict_get "" d = Some v /\ In "" v.
Proof.
  assert (Hin : In "" ["GAGG"; ""]) by (simpl; tauto).
  split; [exact Hin | exact (DeBruijn_empty_kmer _ Hin)].
Defined.

(** * Further properties of the script *)

(** ** Slices *)

Lemma Prefix_length (s : string) : String.length (Prefix s) = String.length s - 1.
Proof.
  induction s as [|a s IH]; auto.
  destruct s as [|b r]; auto.
  rewrite Prefix_cons. cbn [String.length] in *. rewrite IH. lia.
Qed.

Lemma Suffix_length (s : string) : String.length (Suffix s) = String.length s - 1.
Proof.
  destruct s as [|a s]; auto. rewrite Suffix_cons. simpl. lia.
Qed.

Lemma Prefix_last (s : string) :
  s <> "" -> exists b, s = (Prefix s ++ String b "")%string.
Proof.
  induction s as [|a s IH]; [congruence|]. intros _.
  destruct s as [|b r].
  - exists a. reflexivity.
  - destruct IH as [c Hc]; [discriminate|].
    exists c. rewrite Prefix_cons. simpl. now rewrite <- Hc.
Qed.

(** X1: the prefix and the suffix of a string are one symbol shorter than
    the string, and as long as the empty string when the string is
    empty. *)
Theorem slices_length (s : string) :
  String.length (Prefix s) = String.length s - 1
  /\ String.length (Suffix s) = String.length s - 1.
Proof. split; [apply Prefix_length | apply Suffix_length]. Qed.

(** X2: dropping the last symbol and dropping the first one commute. *)
Theorem Suffix_Prefix (s : string) : Suffix (Prefix s) = Prefix (Suffix s).
Proof.
  destruct s as [|a [|b r]]; auto.
  now rewrite Prefix_cons, !Suffix_cons.
Qed.

(** X3: a string that is not empty is its first symbol followed by its
    suffix, and its prefix followed by its last symbol. *)
Theorem slices_rebuild (s : string) :
  s <> "" ->
  exists a b, s = String a (Suffix s) /\ s = (Prefix s ++ String b "")%string.
Proof.
  intros H. destruct (Prefix_last s H) as [b Hb].
  destruct s as [|a s]; [congruence|].
  exists a, b. split; [now rewrite Suffix_cons | exact Hb].
Qed.

Lemma slices_rebuild_witness :
  "GAGG" <> ""
  /\ exists a b,
      "GAGG" = String a (Suffix "GAGG")
      /\ "GAGG" = (Prefix "GAGG" ++ String b "")%string.
Proof.
  assert (H : "GAGG" <> "") by discriminate.
  split; [exact H | exact (slices_rebuild "GAGG" H)].
Defined.


(** ** [CompositionGraph] *)

(** X5: the edges of a concatenation are the edges of the first part
    followed by those of the second. *)
Theorem CompositionGraph_app (Patterns Patterns' : list string) :
  CompositionGraph (Patterns ++ Patterns')
  = CompositionGraph Patterns ++ CompositionGraph Patterns'.
Proof. rewrite !CompositionGraph_map. apply map_app. Qed.

(** X6: a sequence of k-mers of at least two symbols each is the only input
    with its edges: the edge list determines the k-mers. *)
Theorem CompositionGraph_injective (Patterns Patterns' : list string) :
  Forall (fun kmer => 2 <= String.length kmer) Patterns ->
  CompositionGraph Patterns' = CompositionGraph Patterns ->
  Patterns' = Patterns.
Proof.
  rewrite !CompositionGraph_map. intros HF. revert Patterns'.
  induction HF as [|k P Hk HP IH]; intros [|k' P']; simpl; try discriminate; auto.
  intros [= E1 E2 E]. f_equal; auto. now apply edge_injective.
Qed.

Lemma CompositionGraph_injective_witness :
  Forall (fun kmer => 2 <= String.length kmer) ["GAGG"; "CAGG"]
  /\ CompositionGraph ["GAGG"; "CAGG"] = CompositionGraph ["GAGG"; "CAGG"]
  /\ ["GAGG"; "CAGG"] = ["GAGG"; "CAGG"].
Proof.
  assert (HF : Forall (fun kmer => 2 <= String.length kmer) ["GAGG"; "CAGG"])
    by (repeat constructor; simpl; lia).
  assert (HE : CompositionGraph ["GAGG"; "CAGG"] = CompositionGraph ["GAGG"; "CAGG"])
    by reflexivity.
  split; [exact HF|]. split; [exact HE|].
  exact (CompositionGraph_injective _ _ HF HE).
Defined.

(** ** [DeBruijn] *)

Lemma Permutation_edges_of (d d' : dict (list string)) :
  Permutation d d' -> Permutation (edges_of d) (edges_of d').
Proof.
  unfold edges_of.
  induction 1 as [|x l l' HP IH|x y l|l1 l2 l3 H12 IH12 H23 IH23]; simpl.
  - constructor.
  - now apply Permutation_app_head.
  - rewrite !app_assoc. apply Permutation_app_tail, Permutation_app_comm.
  - now transitivity (flat_map (fun kv => map (pair (fst kv)) (snd kv)) l2).
Qed.

Lemma edges_of_group_step (d : dict (list string)) (e : string * string) :
  Permutation (edges_of (group_step d e)) (e :: edges_of d).
Proof.
  destruct e as [p s]. unfold group_step, edges_of. simpl.
  induction d as [|[k v] d IH]; simpl; auto.
  destruct (String.eqb_spec k p) as [->|N]; simpl.
  - rewrite map_app. simpl. rewrite <- app_assoc. simpl.
    symmetry. apply Permutation_middle.
  - rewrite IH. symmetry. apply Permutation_middle.
Qed.

Lemma edges_of_loop (edges : list (string * string)) (d : dict (list string)) :
  Permutation (edges_of (fold_left group_step edges d)) (edges_of d ++ edges).
Proof.
  revert d. induction edges as [|e edges IH]; intros d; simpl.
  - now rewrite app_nil_r.
  - rewrite IH, edges_of_group_step. apply Permutation_middle.
Qed.

Lemma edges_of_sorted_values (d : dict (list string)) :
  Permutation
    (edges_of (map (fun kv => (fst kv, sorted String.ltb (snd kv))) d))
    (edges_of d).
Proof.
  unfold edges_of. induction d as [|[k v] d IH]; simpl; auto.
  apply Permutation_app; auto.
  apply Permutation_map, sorted_Permutation.
Qed.

Lemma edges_of_adjacency (edges : list (string * string)) :
  Permutation (edges_of (adjacency edges)) edges.
Proof.
  rewrite <- sorted_group_adjacency, edges_of_sorted_values.
  rewrite (Permutation_edges_of _ _ (sorted_Permutation key_ltb (group edges))).
  unfold group. now rewrite edges_of_loop.
Qed.

(** X7: the result of [DeBruijn] holds the edges of [CompositionGraph],
    each as often as [CompositionGraph] lists it, and no other entry. *)
Theorem DeBruijn_edges (Patterns : list string) :
  exists d,
    DeBruijn Patterns = Ok d
    /\ Permutation (edges_of d) (CompositionGraph Patterns).
Proof.
  exists (adjacency (CompositionGraph Patterns)).
  split; [apply DeBruijn_Ok | apply edges_of_adjacency].
Qed.


Lemma adjacency_nonempty (k : string) (vs : list string)
      (edges : list (string * string)) :
  In (k, vs) (adjacency edges) -> vs <> [].
Proof.
  intros Hin. apply In_adjacency in Hin. destruct Hin as [Hk ->].
  intros E. apply (f_equal (@List.length string)) in E.
  rewrite sorted_length in E. apply length_zero_iff_nil in E.
  now apply suffixes_of_nil in E.
Qed.



Lemma length_le_entries (d : dict (list string)) :
  Forall (fun kv => snd kv <> []) d -> List.length d <= entries d.
Proof.
  unfold entries, values.
  induction 1 as [|[k [|v vs]] d Hv Hd IH]; simpl in *; try congruence; lia.
Qed.

Lemma length_keys_adjacency (Patterns : list string) :
  List.length (keys (adjacency (CompositionGraph Patterns)))
  = List.length (nodup string_dec (map Prefix Patterns)).
Proof.
  apply Permutation_length, NoDup_Permutation.
  - apply NoDup_keys_adjacency.
  - apply NoDup_nodup.
  - intros k. rewrite In_keys_adjacency, nodup_In, CompositionGraph_map, map_map.
    reflexivity.
Qed.

(** X9: the result of [DeBruijn] has as many keys as the input has distinct
    prefixes, hence no more keys than the input has k-mers. *)
Theorem DeBruijn_key_count (Patterns : list string) :
  exists d,
    DeBruijn Patterns = Ok d
    /\ List.length (keys d) = List.length (nodup string_dec (map Prefix Patterns))
    /\ List.length (keys d) <= List.length Patterns.
Proof.
  exists (adjacency (CompositionGraph Patterns)).
  split; [apply DeBruijn_Ok|]. split; [apply length_keys_adjacency|].
  unfold keys. rewrite length_map.
  rewrite <- (length_map (fun kmer => (Prefix kmer, Suffix kmer)) Patterns).
  rewrite <- CompositionGraph_map, <- entries_adjacency.
  apply length_le_entries. rewrite Forall_forall. intros [k vs] Hin.
  simpl. now apply adjacency_nonempty in Hin.
Qed.

(** ** [adj_list_to_string] *)

Lemma append_assoc (s t u : string) : ((s ++ t) ++ u = s ++ (t ++ u))%string.
Proof. induction s; simpl; congruence. Qed.

Lemma concat_cons (sep x : string) (l : list string) :
  l <> [] -> String.concat sep (x :: l) = (x ++ sep ++ String.concat sep l)%string.
Proof. destruct l; [congruence | reflexivity]. Qed.

Lemma concat_app (sep : string) (l l' : list string) :
  l <> [] -> l' <> [] ->
  String.concat sep (l ++ l')
  = (String.concat sep l ++ sep ++ String.concat sep l')%string.
Proof.
  intros Hl Hl'. induction l as [|x l IH]; [congruence|].
  destruct l as [|y l].
  - simpl app. now rewrite concat_cons.
  - change ((x :: y :: l) ++ l') with (x :: ((y :: l) ++ l')).
    rewrite concat_cons by discriminate. rewrite IH by discriminate.
    rewrite (concat_cons sep x (y :: l)) by discriminate.
    now rewrite !append_assoc.
Qed.

(** X10: the text of two dictionaries put end to end, neither of them
    empty, is the text of the first, a line break, and the text of the
    second. *)
Theorem adj_list_to_string_app (d d' : dict (list string)) :
  d <> [] -> d' <> [] ->
  adj_list_to_string (d ++ d')
  = (adj_list_to_string d ++ String newline "" ++ adj_list_to_string d')%string.
Proof.
  intros Hd Hd'. unfold adj_list_to_string, items. rewrite map_app.
  apply concat_app.
  - destruct d; [congruence | discriminate].
  - destruct d'; [congruence | discriminate].
Qed.

Lemma adj_list_to_string_app_witness :
  [("AGG", ["GGG"])] <> [] /\ [("CAG", ["AGG"; "AGG"])] <> []
  /\ adj_list_to_string ([("AGG", ["GGG"])] ++ [("CAG", ["AGG"; "AGG"])])
     = (adj_list_to_string [("AGG", ["GGG"])] ++ String newline ""
        ++ adj_list_to_string [("CAG", ["AGG"; "AGG"])])%string.
Proof.
  assert (H1 : [("AGG", ["GGG"])] <> []) by discriminate.
  assert (H2 : [("CAG", ["AGG"; "AGG"])] <> []) by discriminate.
  split; [exact H1|]. split; [exact H2|].
  exact (adj_list_to_string_app _ _ H1 H2).
Defined.

Lemma occurs_append (c : ascii) (s t : string) :
  occurs c (s ++ t)%string = occurs c s + occurs c t.
Proof. induction s as [|a s IH]; simpl; auto. rewrite IH. lia. Qed.

Lemma occurs_concat_free (c : ascii) (sep : string) (l : list string) :
  occurs c sep = 0 -> Forall (fun s => occurs c s = 0) l ->
  occurs c (String.concat sep l) = 0.
Proof.
  intros Hs. induction 1 as [|x l Hx Hl IH]; auto.
  destruct l as [|y l]; auto.
  rewrite concat_cons by discriminate.
  rewrite !occurs_append, Hs, Hx, IH. reflexivity.
Qed.

Lemma occurs_format_item (kv : string * list string) :
  occurs newline (fst kv) = 0 ->
  Forall (fun v => occurs newline v = 0) (snd kv) ->
  occurs newline (format_item kv) = 0.
Proof.
  intros Hk Hv. unfold format_item.
  rewrite !occurs_append, Hk, occurs_concat_free; auto.
Qed.

Lemma occurs_concat_lines (l : list string) :
  Forall (fun s => occurs newline s = 0) l ->
  occurs newline (String.concat (String newline "") l) = List.length l - 1.
Proof.
  induction 1 as [|x l Hx Hl IH]; auto.
  destruct l as [|y l]; [simpl; rewrite Hx; reflexivity|].
  rewrite concat_cons by discriminate.
  rewrite !occurs_append, Hx, IH. simpl. lia.
Qed.

Lemma adj_list_to_string_occurs (d : dict (list string)) :
  Forall (fun kv =>
            occurs newline (fst kv) = 0
            /\ Forall (fun v => occurs newline v = 0) (snd kv)) d ->
  occurs newline (adj_list_to_string d) = List.length d - 1.
Proof.
  intros H. unfold adj_list_to_string, items.
  rewrite occurs_concat_lines, length_map; auto.
  rewrite Forall_map. eapply Forall_impl; [|exact H].
  intros kv [Hk Hv]. now apply occurs_format_item.
Qed.

(** X11: when no key and no entry holds a line break, the text has one
    line per key: the number of its line breaks is the number of keys less
    one (none for the empty dictionary). *)
Theorem adj_list_to_string_lines (d : dict (list string)) :
  Forall (fun kv =>
            occurs newline (fst kv) = 0
            /\ Forall (fun v => occurs newline v = 0) (snd kv)) d ->
  occurs newline (adj_list_to_string d) = List.length (keys d) - 1.
Proof.
  intros H. unfold keys. rewrite length_map. now apply adj_list_to_string_occurs.
Qed.

Lemma adj_list_to_string_lines_witness :
  Forall (fun kv =>
            occurs newline (fst kv) = 0
            /\ Forall (fun v => occurs newline v = 0) (snd kv))
         [("AGG", ["GGG"]); ("CAG", ["AGG"; "AGG"])]
  /\ occurs newline (adj_list_to_string [("AGG", ["GGG"]); ("CAG", ["AGG"; "AGG"])])
     = List.length (keys [("AGG", ["GGG"]); ("CAG", ["AGG"; "AGG"])]) - 1.
Proof.
  assert (H : Forall (fun kv =>
                        occurs newline (fst kv) = 0
                        /\ Forall (fun v => occurs newline v = 0) (snd kv))
                     [("AGG", ["GGG"]); ("CAG", ["AGG"; "AGG"])])
    by (repeat constructor).
  split; [exact H | exact (adj_list_to_string_lines _ H)].
Defined.

(** ** [strip] *)

Lemma isspace_newline : isspace newline = true.
Proof. reflexivity. Qed.

Lemma rstrip_app_space (s : string) (c : ascii) :
  isspace c = true -> rstrip (s ++ String c "")%string = rstrip s.
Proof.
  intros Hc. induction s as [|a s IH]; simpl.
  - now rewrite Hc.
  - now rewrite IH.
Qed.

Lemma lstrip_app (s t : string) :
  lstrip s <> "" -> lstrip (s ++ t)%string = (lstrip s ++ t)%string.
Proof.
  induction s as [|a s IH]; simpl; [congruence|].
  destruct (isspace a); auto.
Qed.

Lemma lstrip_app_blank (s t : string) :
  lstrip s = "" -> lstrip (s ++ t)%string = lstrip t.
Proof.
  induction s as [|a s IH]; simpl; auto.
  destruct (isspace a); auto. discriminate.
Qed.

Lemma strip_app_space (s : string) (c : ascii) :
  isspace c = true -> strip (s ++ String c "")%string = strip s.
Proof.
  intros Hc. unfold strip. destruct (lstrip s) eqn:E.
  - rewrite lstrip_app_blank by assumption. simpl. now rewrite Hc.
  - rewrite lstrip_app by congruence. rewrite E. now apply rstrip_app_space.
Qed.

Lemma rstrip_cons (c : ascii) (s : string) :
  rstrip (String c s)
  = match rstrip s with
    | "" => if isspace c then "" else String c ""
    | r => String c r
    end.
Proof. reflexivity. Qed.

Lemma rstrip_idempotent (s : string) : rstrip (rstrip s) = rstrip s.
Proof.
  induction s as [|c s IH]; auto.
  rewrite rstrip_cons. destruct (rstrip s) as [|x r] eqn:E.
  - destruct (isspace c) eqn:Hc; simpl; auto. now rewrite Hc.
  - rewrite rstrip_cons, IH. reflexivity.
Qed.

Lemma lstrip_head (s : string) :
  lstrip s = "" \/ exists c t, lstrip s = String c t /\ isspace c = false.
Proof.
  induction s as [|a s IH]; simpl; auto.
  destruct (isspace a) eqn:Ha; auto. right. eauto.
Qed.

Lemma rstrip_head (c : ascii) (t : string) :
  isspace c = false -> exists r, rstrip (String c t) = String c r.
Proof.
  intros Hc. simpl. destruct (rstrip t); rewrite ?Hc; eauto.
Qed.

Lemma strip_idempotent (s : string) : strip (strip s) = strip s.
Proof.
  unfold strip. destruct (lstrip_head s) as [E|(c & t & E & Hc)]; rewrite E.
  - reflexivity.
  - destruct (rstrip_head c t Hc) as [r Hr].
    assert (Hl : lstrip (rstrip (String c t)) = rstrip (String c t)).
    { rewrite Hr. simpl. now rewrite Hc. }
    rewrite Hl. apply rstrip_idempotent.
Qed.

Lemma occurs_lstrip (c : ascii) (s : string) : occurs c (lstrip s) <= occurs c s.
Proof.
  induction s as [|a s IH]; simpl; auto.
  destruct (isspace a); simpl; lia.
Qed.

Lemma occurs_rstrip (c : ascii) (s : string) : occurs c (rstrip s) <= occurs c s.
Proof.
  induction s as [|a s IH]; simpl; auto.
  destruct (rstrip s); [destruct (isspace a)|]; simpl in *; lia.
Qed.

Lemma occurs_strip (c : ascii) (s : string) : occurs c (strip s) <= occurs c s.
Proof.
  unfold strip. etransitivity; [apply occurs_rstrip | apply occurs_lstrip].
Qed.

(** ** Lines *)

Lemma occurs_zero_cons (c a : ascii) (s : string) :
  occurs c (String a s) = 0 -> Ascii.eqb a c = false /\ occurs c s = 0.
Proof. simpl. destruct (Ascii.eqb a c); simpl; [discriminate | auto]. Qed.

Lemma readlines_line (k rest : string) :
  occurs newline k = 0 ->
  readlines (k ++ String newline rest)%string
  = (k ++ String newline "")%string :: readlines rest.
Proof.
  induction k as [|a k IH]; intros H.
  - reflexivity.
  - apply occurs_zero_cons in H. destruct H as [Ha Hk].
    cbn [append readlines]. rewrite Ha, IH by assumption. reflexivity.
Qed.

Lemma readlines_last (k : string) :
  k <> "" -> occurs newline k = 0 -> readlines k = [k].
Proof.
  induction k as [|a k IH]; [congruence|]. intros _ H.
  apply occurs_zero_cons in H. destruct H as [Ha Hk].
  cbn [readlines]. rewrite Ha. destruct k as [|b k]; auto.
  rewrite IH by (discriminate || assumption). reflexivity.
Qed.

Lemma universal_newlines_other (c : ascii) (s : string) :
  Ascii.eqb c carriage_return = false ->
  universal_newlines (String c s) = String c (universal_newlines s).
Proof. intros H. cbn [universal_newlines]. now rewrite H. Qed.

Lemma universal_newlines_free (s : string) :
  occurs carriage_return s = 0 -> universal_newlines s = s.
Proof.
  induction s as [|a s IH]; auto. intros H.
  apply occurs_zero_cons in H. destruct H as [Ha Hs].
  rewrite universal_newlines_other, IH; auto.
Qed.

Lemma universal_newlines_line (k rest : string) :
  occurs carriage_return k = 0 ->
  universal_newlines (k ++ String carriage_return (String newline rest))%string
  = (k ++ String newline (universal_newlines rest))%string.
Proof.
  induction k as [|a k IH]; intros H.
  - reflexivity.
  - apply occurs_zero_cons in H. destruct H as [Ha Hk].
    cbn [append]. rewrite universal_newlines_other, IH; auto.
Qed.

Lemma stripped_lines_line (k : string) (file : list string) :
  clean k ->
  stripped_lines ((k ++ String newline "")%string :: file) = k :: stripped_lines file.
Proof.
  intros (Hne & Hs & _). unfold stripped_lines. cbn [filter].
  rewrite strip_app_space by apply isspace_newline. rewrite Hs.
  destruct (String.eqb_spec k "") as [E|_]; [contradiction|].
  cbn [negb map]. rewrite strip_app_space by apply isspace_newline.
  now rewrite Hs.
Qed.

Lemma stripped_lines_last (k : string) : clean k -> stripped_lines [k] = [k].
Proof.
  intros (Hne & Hs & _). unfold stripped_lines. cbn [filter]. rewrite Hs.
  destruct (String.eqb_spec k "") as [E|_]; [contradiction|].
  cbn [negb map]. now rewrite Hs.
Qed.

(** The lines of a file that lists [kmers], and of one that also ends its
    last line. *)
Lemma stripped_lines_listing (kmers : list string) :
  Forall clean kmers ->
  stripped_lines (readlines (String.concat (String newline "") kmers)) = kmers.
Proof.
  induction 1 as [|k ks Hk Hks IH]; auto.
  destruct ks as [|k2 ks].
  - destruct Hk as (Hne & Hs & Hn & Hr). simpl String.concat.
    rewrite readlines_last by assumption. now apply stripped_lines_last.
  - rewrite concat_cons by discriminate. cbn [append].
    destruct Hk as (Hne & Hs & Hn & Hr).
    rewrite readlines_line by assumption.
    rewrite stripped_lines_line by (repeat split; assumption).
    now rewrite IH.
Qed.

Lemma stripped_lines_listing_ended (kmers : list string) :
  Forall clean kmers ->
  stripped_lines
    (readlines (String.concat (String newline "") kmers ++ String newline "")%string)
  = kmers.
Proof.
  induction 1 as [|k ks Hk Hks IH]; auto.
  assert (Hk' := Hk). destruct Hk' as (Hne & Hs & Hn & Hr).
  destruct ks as [|k2 ks].
  - simpl String.concat. rewrite readlines_line by assumption.
    now rewrite stripped_lines_line.
  - rewrite concat_cons by discriminate. rewrite append_assoc. cbn [append].
    rewrite readlines_line by assumption.
    rewrite stripped_lines_line by assumption.
    f_equal. rewrite <- IH at 2. reflexivity.
Qed.

Lemma occurs_listing (c : ascii) (kmers : list string) :
  Ascii.eqb newline c = false ->
  Forall (fun k => occurs c k = 0) kmers ->
  occurs c (String.concat (String newline "") kmers) = 0.
Proof.
  intros Hc HF. apply occurs_concat_free; auto. cbn [occurs]. now rewrite Hc.
Qed.

Lemma clean_no_return (kmers : list string) :
  Forall clean kmers -> Forall (fun k => occurs carriage_return k = 0) kmers.
Proof. apply Forall_impl. intros k H. apply H. Qed.

(** X12: a file that lists k-mers one per line, each not empty, with no
    blank at either end and no line break inside, reads back as these
    k-mers, in the order of the file, whether its last line is ended or
    not. *)
Theorem read_kmers_from_file_listing
        (fs : filesystem) (path text : string) (kmers : list string) :
  Forall clean kmers ->
  text = String.concat (String newline "") kmers
  \/ text = (String.concat (String newline "") kmers ++ String newline "")%string ->
  fs path = Some text ->
  read_kmers_from_file fs path = Some kmers.
Proof.
  intros HF Ht Hfs. unfold read_kmers_from_file. rewrite Hfs. f_equal.
  fold (stripped_lines (readlines (universal_newlines text))).
  assert (H0 : occurs carriage_return (String.concat (String newline "") kmers) = 0)
    by (apply occurs_listing; [reflexivity | now apply clean_no_return]).
  destruct Ht as [-> | ->].
  - rewrite universal_newlines_free by assumption.
    now apply stripped_lines_listing.
  - rewrite universal_newlines_free by (rewrite occurs_append, H0; reflexivity).
    now apply stripped_lines_listing_ended.
Qed.

Lemma read_kmers_from_file_listing_witness :
  Forall clean ["GAGG"; "CAGG"]
  /\ (String.concat (String newline "") ["GAGG"; "CAGG"]
      = String.concat (String newline "") ["GAGG"; "CAGG"]
      \/ String.concat (String newline "") ["GAGG"; "CAGG"]
         = (String.concat (String newline "") ["GAGG"; "CAGG"]
            ++ String newline "")%string)
  /\ (fun _ : string => Some (String.concat (String newline "") ["GAGG"; "CAGG"]))
       "kmers.txt"
     = Some (String.concat (String newline "") ["GAGG"; "CAGG"])
  /\ read_kmers_from_file
       (fun _ => Some (String.concat (String newline "") ["GAGG"; "CAGG"]))
       "kmers.txt"
     = Some ["GAGG"; "CAGG"].
Proof.
  assert (HF : Forall clean ["GAGG"; "CAGG"])
    by (repeat (constructor; [repeat split; (discriminate || reflexivity)|]);
        constructor).
  assert (Ht : String.concat (String newline "") ["GAGG"; "CAGG"]
               = String.concat (String newline "") ["GAGG"; "CAGG"]
               \/ String.concat (String newline "") ["GAGG"; "CAGG"]
                  = (String.concat (String newline "") ["GAGG"; "CAGG"]
                     ++ String newline "")%string)
    by (left; reflexivity).
  assert (Hfs : (fun _ : string =>
                   Some (String.concat (String newline "") ["GAGG"; "CAGG"]))
                  "kmers.txt"
                = Some (String.concat (String newline "") ["GAGG"; "CAGG"]))
    by reflexivity.
  split; [exact HF|]. split; [exact Ht|]. split; [exact Hfs|].
  exact (read_kmers_from_file_listing _ "kmers.txt" _ _ HF Ht Hfs).
Defined.

Lemma universal_newlines_listing (kmers : list string) :
  Forall clean kmers ->
  universal_newlines
    (String.concat (String carriage_return (String newline "")) kmers)
  = String.concat (String newline "") kmers.
Proof.
  induction 1 as [|k ks Hk Hks IH]; auto.
  destruct Hk as (Hne & Hs & Hn & Hr). destruct ks as [|k2 ks].
  - simpl String.concat. now apply universal_newlines_free.
  - rewrite !concat_cons by discriminate. cbn [append].
    rewrite universal_newlines_line by assumption. now rewrite IH.
Qed.

(** X13: the same file with its lines separated by [\r\n] reads back as the
    same k-mers. *)
Theorem read_kmers_from_file_crlf
        (fs : filesystem) (path : string) (kmers : list string) :
  Forall clean kmers ->
  fs path
  = Some (String.concat (String carriage_return (String newline "")) kmers) ->
  read_kmers_from_file fs path = Some kmers.
Proof.
  intros HF Hfs. unfold read_kmers_from_file. rewrite Hfs. f_equal.
  rewrite universal_newlines_listing by assumption.
  now apply stripped_lines_listing.
Qed.

Lemma read_kmers_from_file_crlf_witness :
  Forall clean ["GAGG"; "CAGG"]
  /\ (fun _ : string =>
        Some (String.concat (String carriage_return (String newline ""))
                            ["GAGG"; "CAGG"])) "kmers.txt"
     = Some (String.concat (String carriage_return (String newline ""))
                           ["GAGG"; "CAGG"])
  /\ read_kmers_from_file
       (fun _ => Some (String.concat (String carriage_return (String newline ""))
                                     ["GAGG"; "CAGG"]))
       "kmers.txt"
     = Some ["GAGG"; "CAGG"].
Proof.
  assert (HF : Forall clean ["GAGG"; "CAGG"])
    by (repeat (constructor; [repeat split; (discriminate || reflexivity)|]);
        constructor).
  assert (Hfs : (fun _ : string =>
                   Some (String.concat (String carriage_return (String newline ""))
                                       ["GAGG"; "CAGG"])) "kmers.txt"
                = Some (String.concat (String carriage_return (String newline ""))
                                      ["GAGG"; "CAGG"]))
    by reflexivity.
  split; [exact HF|]. split; [exact Hfs|].
  exact (read_kmers_from_file_crlf _ "kmers.txt" _ HF Hfs).
Defined.

Lemma universal_newlines_eq (c : ascii) (s : string) :
  universal_newlines (String c s)
  = if Ascii.eqb c carriage_return then
      match s with
      | "" => String newline ""
      | String c' s'' =>
          if Ascii.eqb c' newline then String newline (universal_newlines s'')
          else String newline (universal_newlines s)
      end
    else String c (universal_newlines s).
Proof. destruct s; reflexivity. Qed.

Lemma universal_newlines_no_return_upto (n : nat) (s : string) :
  String.length s <= n -> occurs carriage_return (universal_newlines s) = 0.
Proof.
  revert s. induction n as [|n IH]; intros [|a s] H; simpl in H; auto; try lia.
  rewrite universal_newlines_eq.
  destruct (Ascii.eqb a carriage_return) eqn:Ha.
  - destruct s as [|b s]; auto.
    destruct (Ascii.eqb b newline);
      cbn [occurs]; rewrite IH by (simpl in *; lia); reflexivity.
  - cbn [occurs]. rewrite Ha, IH by lia. reflexivity.
Qed.

Lemma universal_newlines_no_return (s : string) :
  occurs carriage_return (universal_newlines s) = 0.
Proof. now apply (universal_newlines_no_return_upto (String.length s)). Qed.

(** Every line is a stretch without [\n], followed or not by [\n], and
    holds no more of a character than the text. *)
Lemma readlines_bodies (c : ascii) (s : string) :
  Forall (fun line =>
            exists body,
              (line = body \/ line = (body ++ String newline "")%string)
              /\ occurs newline body = 0 /\ occurs c body <= occurs c s)
         (readlines s).
Proof.
  induction s as [|a s IH]; [constructor|].
  cbn [readlines]. destruct (Ascii.eqb a newline) eqn:Ha.
  - apply Ascii.eqb_eq in Ha. subst a. constructor.
    + exists "". split; [right; reflexivity|]. split; simpl; lia.
    + eapply Forall_impl; [|exact IH].
      intros line (body & Hl & Hn & Hc). exists body. simpl. repeat split; auto. lia.
  - destruct (readlines s) as [|line lines].
    + constructor; [|constructor]. exists (String a "").
      split; [now left|]. cbn [occurs]. rewrite Ha. split; lia.
    + inversion IH as [|? ? (body & Hl & Hn & Hc) Hrest]; subst.
      constructor.
      * exists (String a body). split.
        { destruct Hl as [-> | ->]; [now left | now right]. }
        cbn [occurs]. rewrite Ha, Hn. split; lia.
      * eapply Forall_impl; [|exact Hrest].
        intros l (b & Hl' & Hn' & Hc'). exists b. simpl. repeat split; auto. lia.
Qed.

Lemma strip_line (line body : string) :
  line = body \/ line = (body ++ String newline "")%string ->
  strip line = strip body.
Proof.
  intros [-> | ->]; auto. apply strip_app_space, isspace_newline.
Qed.

Lemma stripped_lines_clean (text : string) :
  Forall clean (stripped_lines (readlines (universal_newlines text))).
Proof.
  unfold stripped_lines. rewrite Forall_map, Forall_forall.
  intros line Hin. apply filter_In in Hin. destruct Hin as [Hin Hne].
  pose proof (readlines_bodies carriage_return (universal_newlines text)) as HB.
  rewrite Forall_forall in HB. destruct (HB _ Hin) as (body & Hl & Hn & Hr).
  rewrite universal_newlines_no_return in Hr.
  rewrite (strip_line _ _ Hl) in *.
  repeat split.
  - destruct (String.eqb_spec (strip body) ""); [discriminate | assumption].
  - apply strip_idempotent.
  - pose proof (occurs_strip newline body). lia.
  - pose proof (occurs_strip carriage_return body). lia.
Qed.

(** X14: whatever the text of the file, every k-mer that
    [read_kmers_from_file] returns is a string that is not empty, has no
    blank at either end and holds no line break. *)
Theorem read_kmers_from_file_clean (fs : filesystem) (path text : string) :
  fs path = Some text ->
  exists kmers,
    read_kmers_from_file fs path = Some kmers /\ Forall clean kmers.
Proof.
  intros Hfs. unfold read_kmers_from_file. rewrite Hfs.
  eexists. split; [reflexivity|]. apply stripped_lines_clean.
Qed.

Lemma read_kmers_from_file_clean_witness :
  (fun _ : string => Some " GAGG  ") "kmers.txt" = Some " GAGG  "
  /\ exists kmers,
      read_kmers_from_file (fun _ => Some " GAGG  ") "kmers.txt" = Some kmers
      /\ Forall clean kmers.
Proof.
  assert (Hfs : (fun _ : string => Some " GAGG  ") "kmers.txt" = Some " GAGG  ")
    by reflexivity.
  split; [exact Hfs | exact (read_kmers_from_file_clean _ "kmers.txt" _ Hfs)].
Defined.

(** ** Blank files *)

Lemma blank_universal_newlines_upto (n : nat) (s : string) :
  String.length s <= n -> blank s = true -> blank (universal_newlines s) = true.
Proof.
  revert s. induction n as [|n IH]; intros [|a s] H; simpl in H; auto; try lia.
  cbn [blank]. intros Hb. apply andb_prop in Hb. destruct Hb as [Ha Hs].
  rewrite universal_newlines_eq.
  destruct (Ascii.eqb a carriage_return) eqn:Hr.
  - destruct s as [|b s]; auto.
    cbn [blank] in Hs. apply andb_prop in Hs. destruct Hs as [Hb Hs'].
    destruct (Ascii.eqb b newline); cbn [blank]; rewrite isspace_newline.
    + apply IH; [simpl in *; lia | assumption].
    + apply IH; [lia|]. cbn [blank]. now rewrite Hb, Hs'.
  - cbn [blank]. rewrite Ha. apply IH; [lia | assumption].
Qed.

Lemma blank_readlines (s : string) :
  blank s = true -> Forall (fun line => blank line = true) (readlines s).
Proof.
  induction s as [|a s IH]; [constructor|].
  cbn [blank]. intros Hb. apply andb_prop in Hb. destruct Hb as [Ha Hs].
  specialize (IH Hs). cbn [readlines].
  destruct (Ascii.eqb a newline).
  - constructor; auto. cbn [blank]. now rewrite Ha.
  - destruct (readlines s) as [|line lines].
    + constructor; auto. cbn [blank]. now rewrite Ha.
    + inversion IH; subst. constructor; auto. cbn [blank]. now rewrite Ha.
Qed.

Lemma blank_strip (s : string) : blank s = true -> strip s = "".
Proof.
  intros Hb. unfold strip.
  assert (E : lstrip s = "").
  { induction s as [|a s IH]; auto. cbn [blank] in Hb.
    apply andb_prop in Hb. destruct Hb as [Ha Hs]. simpl. rewrite Ha. auto. }
  now rewrite E.
Qed.

Lemma stripped_lines_blank (file : list string) :
  Forall (fun line => blank line = true) file -> stripped_lines file = [].
Proof.
  unfold stripped_lines. induction 1 as [|line file Hl Hf IH]; auto.
  cbn [filter]. rewrite (blank_strip _ Hl). simpl. exact IH.
Qed.

(** X15: a file that holds nothing but white space, the empty file
    included, yields no k-mer. *)
Theorem read_kmers_from_file_blank (fs : filesystem) (path text : string) :
  blank text = true ->
  fs path = Some text ->
  read_kmers_from_file fs path = Some [].
Proof.
  intros Hb Hfs. unfold read_kmers_from_file. rewrite Hfs. f_equal.
  apply stripped_lines_blank, blank_readlines.
  now apply (blank_universal_newlines_upto (String.length text)).
Qed.

Lemma read_kmers_from_file_blank_witness :
  blank (String newline (String " " (String carriage_return ""))) = true
  /\ (fun _ : string => Some (String newline (String " " (String carriage_return ""))))
       "kmers.txt"
     = Some (String newline (String " " (String carriage_return "")))
  /\ read_kmers_from_file
       (fun _ => Some (String newline (String " " (String carriage_return ""))))
       "kmers.txt" = Some [].
Proof.
  assert (Hb : blank (String newline (String " " (String carriage_return ""))) = true)
    by reflexivity.
  assert (Hfs : (fun _ : string =>
                   Some (String newline (String " " (String carriage_return ""))))
                  "kmers.txt"
                = Some (String newline (String " " (String carriage_return ""))))
    by reflexivity.
  split; [exact Hb|]. split; [exact Hfs|].
  exact (read_kmers_from_file_blank _ "kmers.txt" _ Hb Hfs).
Defined.

(** ** The example usage *)

Lemma read_kmers_from_file_text (fs : filesystem) (path text : string) :
  fs path = Some text ->
  read_kmers_from_file fs path
  = Some (stripped_lines (readlines (universal_newlines text))).
Proof. intros Hfs. unfold read_kmers_from_file. now rewrite Hfs. Qed.

Lemma stripped_lines_text_listing (kmers : list string) :
  Forall clean kmers ->
  stripped_lines
    (readlines (universal_newlines (String.concat (String newline "") kmers)))
  = kmers.
Proof.
  intros HF. rewrite universal_newlines_free.
  - now apply stripped_lines_listing.
  - apply occurs_listing; [reflexivity | now apply clean_no_return].
Qed.

Lemma example_usage_kmers (fs : filesystem) (kmers : list string) :
  read_kmers_from_file fs filename = Some kmers ->
  example_usage fs
  = Some (Ok (adj_list_to_string (adjacency (CompositionGraph kmers)))).
Proof.
  intros H. unfold example_usage. rewrite H, DeBruijn_Ok. reflexivity.
Qed.

(** X16: two versions of the data set that list the same clean k-mers, one
    per line, in two different orders give the example usage the same
    text. *)
Theorem example_usage_Permutation
        (fs fs' : filesystem) (kmers kmers' : list string) :
  Forall clean kmers ->
  Permutation kmers kmers' ->
  fs filename = Some (String.concat (String newline "") kmers) ->
  fs' filename = Some (String.concat (String newline "") kmers') ->
  exists graph_str,
    example_usage fs = Some (Ok graph_str)
    /\ example_usage fs' = Some (Ok graph_str).
Proof.
  intros HF HP Hfs Hfs'.
  assert (HF' : Forall clean kmers') by (eapply Permutation_Forall; eassumption).
  exists (adj_list_to_string (adjacency (CompositionGraph kmers))). split.
  - apply example_usage_kmers.
    rewrite (read_kmers_from_file_text _ _ _ Hfs).
    now rewrite stripped_lines_text_listing.
  - rewrite (example_usage_kmers fs' kmers').
    + do 3 f_equal. symmetry. apply adjacency_Permutation.
      rewrite !CompositionGraph_map. now apply Permutation_map.
    + rewrite (read_kmers_from_file_text _ _ _ Hfs').
      now rewrite stripped_lines_text_listing.
Qed.

Lemma example_usage_Permutation_witness :
  Forall clean ["GAGG"; "CAGG"; "GGGA"]
  /\ Permutation ["GAGG"; "CAGG"; "GGGA"] ["CAGG"; "GAGG"; "GGGA"]
  /\ (fun _ : string =>
        Some (String.concat (String newline "") ["GAGG"; "CAGG"; "GGGA"])) filename
     = Some (String.concat (String newline "") ["GAGG"; "CAGG"; "GGGA"])
  /\ (fun _ : string =>
        Some (String.concat (String newline "") ["CAGG"; "GAGG"; "GGGA"])) filename
     = Some (String.concat (String newline "") ["CAGG"; "GAGG"; "GGGA"])
  /\ exists graph_str,
      example_usage
        (fun _ => Some (String.concat (String newline "") ["GAGG"; "CAGG"; "GGGA"]))
      = Some (Ok graph_str)
      /\ example_usage
           (fun _ => Some (String.concat (String newline "") ["CAGG"; "GAGG"; "GGGA"]))
         = Some (Ok graph_str).
Proof.
  assert (HF : Forall clean ["GAGG"; "CAGG"; "GGGA"])
    by (repeat (constructor; [repeat split; (discriminate || reflexivity)|]);
        constructor).
  assert (HP : Permutation ["GAGG"; "CAGG"; "GGGA"] ["CAGG"; "GAGG"; "GGGA"])
    by apply perm_swap.
  split; [exact HF|]. split; [exact HP|].
  split; [reflexivity|]. split; [reflexivity|].
  exact (example_usage_Permutation
           (fun _ => Some (String.concat (String newline "") ["GAGG"; "CAGG"; "GGGA"]))
           (fun _ => Some (String.concat (String newline "") ["CAGG"; "GAGG"; "GGGA"]))
           _ _ HF HP eq_refl eq_refl).
Defined.






(** X18: a data set that holds nothing but white space, the empty file
    included, makes the example usage build the empty text. *)
Theorem example_usage_blank (fs : filesystem) (text : string) :
  blank text = true ->
  fs filename = Some text ->
  example_usage fs = Some (Ok "").
Proof.
  intros Hb Hfs. rewrite (example_usage_kmers fs []); [reflexivity|].
  rewrite (read_kmers_from_file_text _ _ _ Hfs). f_equal.
  apply stripped_lines_blank, blank_readlines.
  now apply (blank_universal_newlines_upto (String.length text)).
Qed.

Lemma example_usage_blank_witness :
  blank "" = true
  /\ (fun _ : string => Some "") filename = Some ""
  /\ example_usage (fun _ => Some "") = Some (Ok "").
Proof.
  assert (Hb : blank "" = true) by reflexivity.
  assert (Hfs : (fun _ : string => Some "") filename = Some "") by reflexivity.
  split; [exact Hb|]. split; [exact Hfs|].
  exact (example_usage_blank _ _ Hb Hfs).
Defined.

(** ** Nodes without outgoing edge *)

(** X19: a suffix that no k-mer of the input has as prefix is an entry of a
    value list of the result of [DeBruijn] but not one of its keys: asking
    the result for it raises [KeyError]. *)
Theorem DeBruijn_sink (Patterns : list string) (kmer : string) :
  In kmer Patterns ->
  (forall kmer', In kmer' Patterns -> Prefix kmer' <> Suffix kmer) ->
  exists d vs,
    DeBruijn Patterns = Ok d
    /\ dict_get (Prefix kmer) d = Some vs /\ In (Suffix kmer) vs
    /\ dict_contains (Suffix kmer) d = false
    /\ dict_getitem (Suffix kmer) d = Raise (KeyError (Suffix kmer)).
Proof.
  intros Hin Hsink.
  destruct (adjacency_edge _ _ Hin) as (vs & Hvs & Hs).
  exists (adjacency (CompositionGraph Patterns)), vs.
  split; [apply DeBruijn_Ok|]. split; auto. split; auto.
  assert (E : dict_get (Suffix kmer) (adjacency (CompositionGraph Patterns)) = None).
  { apply dict_get_None. rewrite In_keys_adjacency, CompositionGraph_map, map_map.
    simpl. rewrite in_map_iff. intros (kmer' & HP & Hk'). now apply (Hsink kmer'). }
  unfold dict_contains, dict_getitem. rewrite E. auto.
Qed.

Lemma DeBruijn_sink_witness :
  In "GGAC" ["GAGG"; "GGAC"]
  /\ (forall kmer', In kmer' ["GAGG"; "GGAC"] -> Prefix kmer' <> Suffix "GGAC")
  /\ exists d vs,
      DeBruijn ["GAGG"; "GGAC"] = Ok d
      /\ dict_get (Prefix "GGAC") d = Some vs /\ In (Suffix "GGAC") vs
      /\ dict_contains (Suffix "GGAC") d = false
      /\ dict_getitem (Suffix "GGAC") d = Raise (KeyError (Suffix "GGAC")).
Proof.
  assert (Hin : In "GGAC" ["GAGG"; "GGAC"]) by (simpl; tauto).
  assert (Hsink : forall kmer', In kmer' ["GAGG"; "GGAC"] ->
                           Prefix kmer' <> Suffix "GGAC").
  { intros kmer' [<-|[<-|[]]]; discriminate. }
  split; [exact Hin|]. split; [exact Hsink|].
  exact (DeBruijn_sink _ _ Hin Hsink).
Defined.
